(** * Tesseract: contact aggregation and the KDL environment

    A shallow embedding of
    - [tesseract_collision/contact_checker_common.h]
      ([getObjectPairKey], [isLinkActive], [isContactAllowed],
      [processResult], [createConvexHull]), and
    - [tesseract_ros/src/kdl/kdl_env.cpp]
      ([KDLEnv::setState], [KDLEnv::getState], [KDLEnv::attachBody],
      [KDLEnv::detachBody], [KDLEnv::calculateTransforms],
      [KDLEnv::defaultIsContactAllowedFn], ...),
    followed by the properties of these functions.

    Conventions.
    - [std::string] is [string]; [std::vector<T>] is [list T];
      [std::map] / [std::unordered_map] are [gmap]s.
    - A C++ [double] (and Bullet's [btScalar]) is a [spec_float], the
      Standard Library's IEEE-754 value type (zeros, infinities, NaN and
      finite numbers); [<] on doubles is [SFltb], [<=] is [SFleb].
    - [Eigen::Isometry3d] is kept abstract behind the class [Isometry].
    - ROS console output is an explicit list of log entries. *)

From Stdlib Require Import ZArith String SpecFloat.
From stdpp Require Import base option gmap strings list fin_maps.

Set Warnings "-register-all".

(* ================================================================== *)
(** * Basic types *)

Abbreviation double := spec_float (only parsing).

(** [val < 0] and friends on doubles. *)
Definition double_zero : double := S754_zero false.
Definition double_ltb (a b : double) : bool := SFltb a b.
Definition double_leb (a b : double) : bool := SFleb a b.

Definition is_nan (d : double) : bool :=
  match d with S754_nan => true | _ => false end.

Abbreviation Vector3d := (double * double * double)%type (only parsing).

Inductive LogLevel := ROS_DEBUG | ROS_ERROR.
Abbreviation LogEntry := (LogLevel * string)%type (only parsing).

(** Rigid transforms ([Eigen::Isometry3d]): a product, the identity, and
    the value a default-constructed transform happens to hold (Eigen leaves
    it uninitialised; [operator[]] of the transform map creates such a
    value for a missing key). *)
Class Isometry := {
  Transform : Type;
  compose : Transform → Transform → Transform;
  Identity : Transform;
  uninitialized : Transform;
}.

(** A one-dimensional instance (translations along a line), used for the
    concrete environments further down. *)
#[export] Instance line_isometry : Isometry := {|
  Transform := Z;
  compose := Z.add;
  Identity := 0%Z;
  uninitialized := 0%Z;
|}.

(* ================================================================== *)
(** * contact_checker_common.h *)

Abbreviation ObjectPairKey := (string * string)%type (only parsing).

(** [obj1 < obj2 ? make_pair(obj1, obj2) : make_pair(obj2, obj1)] *)
Definition getObjectPairKey (obj1 obj2 : string) : ObjectPairKey :=
  if String.ltb obj1 obj2 then (obj1, obj2) else (obj2, obj1).

(** [std::find(v.begin(), v.end(), name) != v.end()] *)
Definition contains (v : list string) (name : string) : bool :=
  bool_decide (name ∈ v).

(** [active.empty() || find(active, name) != active.end()] *)
Definition isLinkActive (active : list string) (name : string) : bool :=
  bool_decide (active = []) || contains active name.

(** [IsContactAllowedFn] is a [std::function], which may be empty. *)
Abbreviation IsContactAllowedFn := (option (string → string → bool)) (only parsing).

(** The [verbose] flag only selects debug output; the returned value does
    not depend on it. *)
Definition isContactAllowed (name1 name2 : string) (acm : IsContactAllowedFn)
    (verbose : bool) : bool :=
  if bool_decide (name1 = name2) then true
  else
    match acm with
    | Some f => if f name1 name2 then true else false
    | None => false
    end.

(** Modelled from the spec: the enumeration [ContactTestType] is declared in
    [tesseract_core/basic_types.h], which is not among the sources.  The spec
    names the three policies and speaks of "a policy value outside the three";
    the disabled branch of [processResult] names that fourth value LIMITED. *)
Inductive ContactTestType := FIRST | CLOSEST | ALL | LIMITED.

#[export] Instance ContactTestType_eq_dec : EqDecision ContactTestType.
Proof. solve_decision. Defined.

Inductive ContinouseCollisionType :=
  CCType_None | CCType_Time0 | CCType_Time1 | CCType_Between.

(** Modelled from the spec: [ContactResult] is declared in
    [tesseract_core/basic_types.h]; the fields are those of the spec's data
    model (and those read in [ros_tesseract_utils.h]). *)
Record ContactResult := {
  distance : double;
  type_id : Z * Z;
  link_names : string * string;
  nearest_points : Vector3d * Vector3d;
  normal : Vector3d;
  cc_time : double;
  cc_type : ContinouseCollisionType;
}.

Abbreviation ContactResultVector := (list ContactResult) (only parsing).

(** Modelled from the spec: [ContactTestData], the per-query context
    (policy, allowed-contact predicate, early-termination flag, result map). *)
Record ContactTestData := {
  cd_fn : IsContactAllowedFn;
  cd_type : ContactTestType;
  cd_res : gmap ObjectPairKey ContactResultVector;
  cd_done : bool;
}.

Definition set_done (cdata : ContactTestData) (b : bool) : ContactTestData :=
  {| cd_fn := cd_fn cdata; cd_type := cd_type cdata;
     cd_res := cd_res cdata; cd_done := b |}.

Definition set_res (cdata : ContactTestData)
    (res : gmap ObjectPairKey ContactResultVector) : ContactTestData :=
  {| cd_fn := cd_fn cdata; cd_type := cd_type cdata;
     cd_res := res; cd_done := cd_done cdata |}.

(** What a call can end in besides returning: a failed [assert], or an
    access outside a vector ([dr[0]] or [back()] of an empty vector, an
    index outside an array), which is undefined behaviour in C++. *)
Inductive outcome (A : Type) :=
  | Returns (a : A)
  | AssertionFailed
  | OutOfRange.
Arguments Returns {A} a.
Arguments AssertionFailed {A}.
Arguments OutOfRange {A}.

(** [processResult].  The returned pointer is modelled by the contact it
    points to ([None] for [nullptr]).

    - [!found]: [data] holds the contact; under FIRST the flag [done] is set;
      [cdata.res.insert] adds [(key, data)] unless the key is present (then
      the map is kept) and the result is [back()] of the entry at [key].
    - [found]: [assert(type != FIRST)]; [cdata.res[key]] (creating an empty
      entry when the key is missing); ALL appends; CLOSEST overwrites element
      0 when the new distance is smaller; every other policy falls through
      to [return nullptr].  (With [NDEBUG] the assertion is compiled out and
      FIRST falls through to [return nullptr] as well.) *)
Definition processResult (cdata : ContactTestData) (contact : ContactResult)
    (key : ObjectPairKey) (found : bool)
    : outcome (ContactTestData * option ContactResult) :=
  if negb found then
    let data : ContactResultVector := [contact] in
    let cdata1 :=
      if decide (cd_type cdata = FIRST) then set_done cdata true else cdata in
    match cd_res cdata1 !! key with
    | None => Returns (set_res cdata1 (<[key := data]> (cd_res cdata1)), Some contact)
    | Some old =>
        match last old with
        | Some c => Returns (cdata1, Some c)
        | None => OutOfRange
        end
    end
  else
    if decide (cd_type cdata = FIRST) then AssertionFailed
    else
      let dr := default [] (cd_res cdata !! key) in
      match cd_type cdata with
      | ALL =>
          Returns (set_res cdata (<[key := dr ++ [contact]]> (cd_res cdata)),
                   Some contact)
      | CLOSEST =>
          match dr with
          | [] => OutOfRange
          | dr0 :: rest =>
              if double_ltb (distance contact) (distance dr0)
              then Returns (set_res cdata (<[key := contact :: rest]> (cd_res cdata)),
                            Some contact)
              else Returns (set_res cdata (<[key := dr]> (cd_res cdata)), None)
          end
      | _ => Returns (set_res cdata (<[key := dr]> (cd_res cdata)), None)
      end.

(** Modelled from the spec: the context a query starts from (the
    constructor of [ContactTestData] is not among the sources): a fresh
    result map and the early-termination flag cleared. *)
Definition newContactTestData (fn : IsContactAllowedFn) (type : ContactTestType)
    : ContactTestData :=
  {| cd_fn := fn; cd_type := type; cd_res := ∅; cd_done := false |}.

(** Modelled from the spec: the query loop that feeds [processResult].  The
    managers' [contactTest] and the narrow-phase callbacks are not among the
    sources.  By the spec a query handles the filtered raw contacts one after
    the other, looks the pair key up in the result map to tell whether the
    pair already has results, and stops as soon as the global flag is set. *)
Fixpoint processContacts (cdata : ContactTestData)
    (raw : list (ObjectPairKey * ContactResult)) : outcome ContactTestData :=
  match raw with
  | [] => Returns cdata
  | (key, contact) :: rest =>
      if cd_done cdata then Returns cdata
      else
        let found := bool_decide (is_Some (cd_res cdata !! key)) in
        match processResult cdata contact key found with
        | Returns (cdata', _) => processContacts cdata' rest
        | AssertionFailed => AssertionFailed
        | OutOfRange => OutOfRange
        end
  end.

(** Modelled from the spec: a query under the given policy over the raw
    contacts that passed the filter, each with its canonical pair key. *)
Definition contactTest (fn : IsContactAllowedFn) (type : ContactTestType)
    (raw : list (ObjectPairKey * ContactResult)) : outcome ContactTestData :=
  processContacts (newContactTestData fn type) raw.

(** The raw contacts of one pair, in the order they are processed. *)
Definition contacts_of (key : ObjectPairKey)
    (raw : list (ObjectPairKey * ContactResult)) : list ContactResult :=
  (filter (λ p, p.1 = key) raw).*2.

(** Number of contacts held by a result map. *)
Definition contact_count (res : gmap ObjectPairKey ContactResultVector) : nat :=
  map_fold (λ _ v n, length v + n) 0 res.

(** CLOSEST as the specification words it: the first contact of a pair is
    stored unconditionally, a later one replaces the stored contact only if
    its distance is strictly smaller. *)
Definition closer (stored new : ContactResult) : ContactResult :=
  if double_ltb (distance new) (distance stored) then new else stored.

Definition closest_spec (cs : list ContactResult) : option ContactResult :=
  match cs with
  | [] => None
  | c :: rest => Some (foldl closer c rest)
  end.

(* ------------------------------------------------------------------ *)
(** ** createConvexHull *)

Definition obind {A B : Type} (o : outcome A) (k : A → outcome B) : outcome B :=
  match o with
  | Returns a => k a
  | AssertionFailed => AssertionFailed
  | OutOfRange => OutOfRange
  end.

Notation "x ←? o ; k" := (obind o (λ x, k))
  (at level 20, o at level 100, k at level 200, right associativity,
   format "x  ←?  o ;  '/' k").

Abbreviation btScalar := spec_float (only parsing).
Abbreviation btVector3 := (btScalar * btScalar * btScalar)%type (only parsing).

(** A half-edge of Bullet's [btConvexHullComputer]: [next] and [reverse] are
    offsets relative to the edge's own position in the edge array. *)
Record Edge := {
  e_next : Z;
  e_reverse : Z;
  e_targetVertex : Z;
}.

(** The output members of [btConvexHullComputer]. *)
Record btConvexHullComputer := {
  conv_vertices : list btVector3;
  conv_edges : list Edge;
  conv_faces : list Z;
}.

(** The convex-hull backend (Bullet, an external library): the conversions
    between [double] and [btScalar] and the hull computation, which returns a
    scalar (negative on failure) and fills the computer's output members. *)
Class HullBackend := {
  to_btScalar : double → btScalar;
  of_btScalar : btScalar → double;
  compute : list btVector3 → btScalar → btScalar → btScalar * btConvexHullComputer;
}.

(** [&conv.edges[i]]: an edge is named by its index in the edge array. *)
Definition edge_at (conv : btConvexHullComputer) (i : Z) : outcome Edge :=
  if (i <? 0)%Z then OutOfRange
  else match conv_edges conv !! Z.to_nat i with
       | Some e => Returns e
       | None => OutOfRange
       end.

Definition getTargetVertex (conv : btConvexHullComputer) (i : Z) : outcome Z :=
  e ←? edge_at conv i; Returns (e_targetVertex e).

(** [(this + reverse)->targetVertex] *)
Definition getSourceVertex (conv : btConvexHullComputer) (i : Z) : outcome Z :=
  e ←? edge_at conv i;
  r ←? edge_at conv (i + e_reverse e)%Z;
  Returns (e_targetVertex r).

(** [(this + reverse)->getNextEdgeOfVertex()], i.e. [(this + reverse) + next]
    of the reverse edge. *)
Definition getNextEdgeOfFace (conv : btConvexHullComputer) (i : Z) : outcome Z :=
  e ←? edge_at conv i;
  r ←? edge_at conv (i + e_reverse e)%Z;
  Returns (i + e_reverse e + e_next r)%Z.

(** [while (c != a) { face.push_back(c); edge = next(edge); c = target(edge); }]
    with [c] the target of [edge] on entry.  The loop need not terminate on
    arbitrary edge data; [None] says that [fuel] iterations did not suffice. *)
Fixpoint walkFace (fuel : nat) (conv : btConvexHullComputer) (a : Z)
    (edge : Z) (face : list Z) : option (outcome (list Z)) :=
  match fuel with
  | O => None
  | S fuel' =>
      match getTargetVertex conv edge with
      | Returns c =>
          if (c =? a)%Z then Some (Returns face)
          else
            match getNextEdgeOfFace conv edge with
            | Returns edge' => walkFace fuel' conv a edge' (face ++ [c])
            | AssertionFailed => Some AssertionFailed
            | OutOfRange => Some OutOfRange
            end
      | AssertionFailed => Some AssertionFailed
      | OutOfRange => Some OutOfRange
      end
  end.

(** The body of the loop over the faces, for the face starting at edge
    [start]: the face's vertex indices. *)
Definition faceVertices (fuel : nat) (conv : btConvexHullComputer) (start : Z)
    : option (outcome (list Z)) :=
  match
    (a ←? getSourceVertex conv start;
     b ←? getTargetVertex conv start;
     edge ←? getNextEdgeOfFace conv start;
     c ←? getTargetVertex conv edge;
     edge' ←? getNextEdgeOfFace conv edge;
     Returns (a, [a; b; c], edge'))
  with
  | Returns (a, face, edge') => walkFace fuel conv a edge' face
  | AssertionFailed => Some AssertionFailed
  | OutOfRange => Some OutOfRange
  end.

Fixpoint facesLoop (fuel : nat) (conv : btConvexHullComputer)
    (starts : list Z) (faces : list Z) : option (outcome (list Z)) :=
  match starts with
  | [] => Some (Returns faces)
  | start :: rest =>
      match faceVertices fuel conv start with
      | Some (Returns face) =>
          facesLoop fuel conv rest (faces ++ Z.of_nat (length face) :: face)
      | other => other
      end
  end.

(** What [createConvexHull] leaves behind: the returned [int], the two
    output containers and the console output. *)
Record HullResult := {
  hr_return : Z;
  hr_vertices : list Vector3d;
  hr_faces : list Z;
  hr_log : list LogEntry;
}.

(** The loop that copies the input cloud into Bullet vectors. *)
Definition toBulletPoints `{HullBackend} (input : list Vector3d) : list btVector3 :=
  (λ v : Vector3d, (to_btScalar v.1.1, to_btScalar v.1.2, to_btScalar v.2)) <$> input.

(** [createConvexHull(vertices, faces, input, shrink, shrinkClamp)];
    [vertices] and [faces] are the output containers as the caller passes
    them in. *)
Definition createConvexHull `{HullBackend} (fuel : nat)
    (vertices : list Vector3d) (faces : list Z) (input : list Vector3d)
    (shrink shrinkClamp : double) : option (outcome HullResult) :=
  let vertices : list Vector3d := [] in  (* vertices.clear() *)
  let faces : list Z := [] in            (* faces.clear() *)
  let points := toBulletPoints input in
  let '(val, conv) := compute points (to_btScalar shrink) (to_btScalar shrinkClamp) in
  if double_ltb val double_zero then
    Some (Returns {| hr_return := (-1)%Z; hr_vertices := vertices; hr_faces := faces;
                     hr_log := [(ROS_ERROR, "Failed to create convex hull")] |})
  else
    let vertices :=
      vertices ++
      ((λ v : btVector3, (of_btScalar v.1.1, of_btScalar v.1.2, of_btScalar v.2))
         <$> conv_vertices conv) in
    match facesLoop fuel conv (conv_faces conv) faces with
    | Some (Returns faces) =>
        Some (Returns {| hr_return := Z.of_nat (length (conv_faces conv));
                         hr_vertices := vertices; hr_faces := faces; hr_log := [] |})
    | Some AssertionFailed => Some AssertionFailed
    | Some OutOfRange => Some OutOfRange
    | None => None
    end.

(* ================================================================== *)
(** * kdl_env.cpp *)

(** Shapes are shared pointers to immutable geometry; a shape is named by a
    handle. *)
Abbreviation Shape := nat (only parsing).

Record AttachableObject := {
  ao_name : string;
  ao_collision_shapes : list Shape;
}.

(** Modelled from the spec: the allowed-collision matrix
    ([tesseract_core/basic_types.h], not among the sources) is a table from
    the canonical pair of names (smaller name first) to a reason; a pair is
    allowed when it is present. *)
Abbreviation AllowedCollisionMatrix := (gmap ObjectPairKey string) (only parsing).

(** Modelled from the spec: [AllowedCollisionMatrix::isCollisionAllowed]
    (same header, not among the sources) looks up the canonical pair. *)
Definition isCollisionAllowed (acm : AllowedCollisionMatrix)
    (link_name1 link_name2 : string) : bool :=
  bool_decide (is_Some (acm !! getObjectPairKey link_name1 link_name2)).

(** [KDL::JntArray]: joint positions by index.  Indices come from
    [joint_to_qnr_]; an access outside the array is undefined in C++ (here a
    write outside is dropped and a read outside gives 0). *)
Abbreviation JntArray := (list double) (only parsing).

Definition jnt_get (q : JntArray) (i : nat) : double :=
  default double_zero (q !! i).

Section Environment.
Context `{Isometry}.

(** An element of the KDL tree: the segment's name, the index of its joint
    in the joint array, the segment's pose as a function of the joint
    position (already converted to Eigen), and the child elements. *)
Inductive TreeElement := mkTreeElement {
  seg_name : string;
  seg_q_nr : nat;
  seg_pose : double → Transform;
  seg_children : list TreeElement;
}.

Record EnvState := {
  joints : gmap string double;
  transforms : gmap string Transform;
}.

Record AttachedBodyInfo := {
  object_name : string;
  parent_link_name : string;
  transform : Transform;
  touch_links : list string;
}.

(** Modelled from the spec: a contact manager (the collision-object
    registry).  The managers' implementations are not among the sources; the
    header declares the operations.  An object carries its shapes, its
    enabled flag and its start and end pose; the manager keeps the list of
    active object names. *)
Record CollisionObject := {
  co_shapes : list Shape;
  co_enabled : bool;
  co_pose1 : Transform;
  co_pose2 : Transform;
}.

Record ContactManager := {
  cm_objects : gmap string CollisionObject;
  cm_active : list string;
}.

(** Modelled from the spec: [addCollisionObject] stores the object under its
    name with the given enabled flag, replacing an object of that name. *)
Definition addCollisionObject (cm : ContactManager) (name : string)
    (shapes : list Shape) (enabled : bool) : ContactManager :=
  {| cm_objects :=
       <[name := {| co_shapes := shapes; co_enabled := enabled;
                    co_pose1 := Identity; co_pose2 := Identity |}]> (cm_objects cm);
     cm_active := cm_active cm |}.

(** Modelled from the spec: [removeCollisionObject] drops the named object. *)
Definition removeCollisionObject (cm : ContactManager) (name : string)
    : ContactManager :=
  {| cm_objects := delete name (cm_objects cm); cm_active := cm_active cm |}.

Definition set_enabled (b : bool) (o : CollisionObject) : CollisionObject :=
  {| co_shapes := co_shapes o; co_enabled := b;
     co_pose1 := co_pose1 o; co_pose2 := co_pose2 o |}.

Definition set_poses (pose1 pose2 : Transform) (o : CollisionObject)
    : CollisionObject :=
  {| co_shapes := co_shapes o; co_enabled := co_enabled o;
     co_pose1 := pose1; co_pose2 := pose2 |}.

(** Modelled from the spec: [enableCollisionObject] sets the enabled flag of
    the named object, if the manager holds it. *)
Definition enableCollisionObject (cm : ContactManager) (name : string)
    : ContactManager :=
  {| cm_objects := alter (set_enabled true) name (cm_objects cm);
     cm_active := cm_active cm |}.

(** Modelled from the spec: [disableCollisionObject] clears the enabled flag
    of the named object, if the manager holds it. *)
Definition disableCollisionObject (cm : ContactManager) (name : string)
    : ContactManager :=
  {| cm_objects := alter (set_enabled false) name (cm_objects cm);
     cm_active := cm_active cm |}.

(** Modelled from the spec: [setCollisionObjectsTransform(name, pose)] gives
    the named object, if the manager holds it, the pose as start and as end
    pose (a degenerate sweep). *)
Definition setCollisionObjectsTransform (cm : ContactManager) (name : string)
    (pose : Transform) : ContactManager :=
  {| cm_objects := alter (set_poses pose pose) name (cm_objects cm);
     cm_active := cm_active cm |}.

(** Modelled from the spec: [setCollisionObjectsTransform(transforms)], one
    update per entry of the transform map. *)
Definition setCollisionObjectsTransforms (cm : ContactManager)
    (tfs : gmap string Transform) : ContactManager :=
  foldl (λ cm p, setCollisionObjectsTransform cm p.1 p.2) cm (map_to_list tfs).

(** Modelled from the spec: [setActiveCollisionObjects] replaces the list of
    active object names. *)
Definition setActiveCollisionObjects (cm : ContactManager) (names : list string)
    : ContactManager :=
  {| cm_objects := cm_objects cm; cm_active := names |}.

(** The members of [KDLEnv] that the functions below read or write.  (The
    manipulator table, the URDF/SRDF models, the colour table and the plugin
    loaders are left out: no function below reads them, and [attachBody] /
    [detachBody] only forward the attachment to the manipulators.) *)
Record KDLEnv := {
  kdl_tree_ : TreeElement;
  joint_to_qnr_ : gmap string nat;
  kdl_jnt_array_ : JntArray;
  current_state_ : EnvState;
  link_names_ : list string;
  active_link_names_ : list string;
  attachable_objects_ : gmap string AttachableObject;
  attached_bodies_ : gmap string AttachedBodyInfo;
  allowed_collision_matrix_ : option AllowedCollisionMatrix;
  discrete_manager_ : ContactManager;
  continuous_manager_ : ContactManager;
}.

(** A member function of [KDLEnv]: from the environment before the call to
    the returned value, the environment after the call and the console
    output of the call. *)
Definition Method (A : Type) : Type := KDLEnv → A * KDLEnv * list LogEntry.

(** [KDLEnv::setJointValuesHelper(q, joint_name, joint_value)]: the returned
    flag and the array [q] after the call. *)
Definition setJointValuesHelper (env : KDLEnv) (q : JntArray)
    (joint_name : string) (joint_value : double)
    : bool * JntArray * list LogEntry :=
  match joint_to_qnr_ env !! joint_name with
  | Some qnr => (true, <[qnr := joint_value]> q, [])
  | None =>
      (false, q,
       [(ROS_ERROR,
         "Tried to set joint name " +:+ joint_name +:+ " which does not exist!")])
  end.

(** The body shared by the loops of [setState] and [getState]:
    [if (setJointValuesHelper(q, name, value)) joints[name] = value;] *)
Definition applyJoint (env : KDLEnv)
    (acc : gmap string double * JntArray * list LogEntry)
    (name : string) (value : double)
    : gmap string double * JntArray * list LogEntry :=
  let '(js, q, log) := acc in
  let '(ok, q', msgs) := setJointValuesHelper env q name value in
  (if ok then <[name := value]> js else js, q', log ++ msgs).

(** [for (i = 0; i < joint_names.size(); ++i) ... joint_values[i] ...]:
    [joint_values] is indexed without a check; running past its end is
    [OutOfRange]. *)
Fixpoint applyJoints (env : KDLEnv) (joint_names : list string)
    (joint_values : list double)
    (acc : gmap string double * JntArray * list LogEntry)
    : outcome (gmap string double * JntArray * list LogEntry) :=
  match joint_names, joint_values with
  | [], _ => Returns acc
  | name :: names, value :: values =>
      applyJoints env names values (applyJoint env acc name value)
  | _ :: _, [] => OutOfRange
  end.

(** [for (auto& joint : joints) ...] over an [unordered_map]. *)
Definition applyJointMap (env : KDLEnv) (joints : gmap string double)
    (acc : gmap string double * JntArray * list LogEntry)
    : gmap string double * JntArray * list LogEntry :=
  foldl (λ acc p, applyJoint env acc p.1 p.2) acc (map_to_list joints).

(** [KDLEnv::calculateTransformsHelper] on a valid iterator. *)
Fixpoint calculateTransformsElement (tfs : gmap string Transform)
    (q_in : JntArray) (el : TreeElement) (parent_frame : Transform)
    {struct el} : gmap string Transform :=
  let global_frame := compose parent_frame (seg_pose el (jnt_get q_in (seg_q_nr el))) in
  foldl (λ tfs child, calculateTransformsElement tfs q_in child global_frame)
    (<[seg_name el := global_frame]> tfs) (seg_children el).

(** [KDLEnv::calculateTransformsHelper]; [None] is the end iterator. *)
Definition calculateTransformsHelper (tfs : gmap string Transform)
    (q_in : JntArray) (it : option TreeElement) (parent_frame : Transform)
    : gmap string Transform :=
  match it with
  | Some el => calculateTransformsElement tfs q_in el parent_frame
  | None => tfs
  end.

(** [transforms[key]] used as a value: the entry, created on demand. *)
Definition at_key (tfs : gmap string Transform) (key : string) : Transform :=
  default uninitialized (tfs !! key).

Definition touch (tfs : gmap string Transform) (key : string)
    : gmap string Transform :=
  match tfs !! key with
  | Some _ => tfs
  | None => <[key := uninitialized]> tfs
  end.

(** [transforms[attached.first] =
       transforms[attached.second.parent_link_name] * attached.second.transform] *)
Definition overlayAttached (tfs : gmap string Transform)
    (attached : string * AttachedBodyInfo) : gmap string Transform :=
  let parent := parent_link_name attached.2 in
  <[attached.1 := compose (at_key tfs parent) (transform attached.2)]>
    (touch tfs parent).

(** [KDLEnv::calculateTransforms] *)
Definition calculateTransforms (env : KDLEnv) (tfs : gmap string Transform)
    (q_in : JntArray) (it : option TreeElement) (parent_frame : Transform)
    : gmap string Transform :=
  let tfs := calculateTransformsHelper tfs q_in it parent_frame in
  foldl overlayAttached tfs (map_to_list (attached_bodies_ env)).

(** [kdl_tree_->getRootSegment()] *)
Definition getRootSegment (env : KDLEnv) : option TreeElement :=
  Some (kdl_tree_ env).

(** The names of the segments of a tree. *)
Fixpoint segment_names (el : TreeElement) : list string :=
  seg_name el :: concat (map segment_names (seg_children el)).

End Environment.

Section Methods.
Context `{Isometry}.

(** [KDLEnv::setState(const std::unordered_map<std::string, double>& joints)].
    [current_state_->joints.insert(first, last)] adds every given entry whose
    name the record does not hold yet; entries already present are kept. *)
Definition setState_map (joint_map : gmap string double) : Method unit := λ env,
  let cur := current_state_ env in
  let inserted := joints cur ∪ joint_map in
  let '(js, q, log) := applyJointMap env joint_map (inserted, kdl_jnt_array_ env, []) in
  let tfs := calculateTransforms env (transforms cur) q (getRootSegment env) Identity in
  (tt,
   {| kdl_tree_ := kdl_tree_ env;
      joint_to_qnr_ := joint_to_qnr_ env;
      kdl_jnt_array_ := q;
      current_state_ := {| joints := js; transforms := tfs |};
      link_names_ := link_names_ env;
      active_link_names_ := active_link_names_ env;
      attachable_objects_ := attachable_objects_ env;
      attached_bodies_ := attached_bodies_ env;
      allowed_collision_matrix_ := allowed_collision_matrix_ env;
      discrete_manager_ := setCollisionObjectsTransforms (discrete_manager_ env) tfs;
      continuous_manager_ := setCollisionObjectsTransforms (continuous_manager_ env) tfs |},
   log).

(** [KDLEnv::setState(const std::vector<std::string>& joint_names,
                      const std::vector<double>& joint_values)].
    When [joint_values] is too short the loop reads past its end; the model
    then reports [OutOfRange] and the environment it returns is meaningless. *)
Definition setState_vector (joint_names : list string) (joint_values : list double)
    : Method (outcome unit) := λ env,
  let cur := current_state_ env in
  match applyJoints env joint_names joint_values (joints cur, kdl_jnt_array_ env, []) with
  | Returns (js, q, log) =>
      let tfs := calculateTransforms env (transforms cur) q (getRootSegment env) Identity in
      (Returns tt,
       {| kdl_tree_ := kdl_tree_ env;
          joint_to_qnr_ := joint_to_qnr_ env;
          kdl_jnt_array_ := q;
          current_state_ := {| joints := js; transforms := tfs |};
          link_names_ := link_names_ env;
          active_link_names_ := active_link_names_ env;
          attachable_objects_ := attachable_objects_ env;
          attached_bodies_ := attached_bodies_ env;
          allowed_collision_matrix_ := allowed_collision_matrix_ env;
          discrete_manager_ := setCollisionObjectsTransforms (discrete_manager_ env) tfs;
          continuous_manager_ := setCollisionObjectsTransforms (continuous_manager_ env) tfs |},
       log)
  | AssertionFailed => (AssertionFailed, env, [])
  | OutOfRange => (OutOfRange, env, [])
  end.

(** [KDLEnv::getState(const std::unordered_map<std::string, double>& joints) const] *)
Definition getState_map (joint_map : gmap string double) : Method EnvState := λ env,
  let state := current_state_ env in          (* a copy of the live state *)
  let jnt_array := kdl_jnt_array_ env in      (* a copy of the live joint array *)
  let '(js, q, log) := applyJointMap env joint_map (joints state, jnt_array, []) in
  let tfs := calculateTransforms env (transforms state) q (getRootSegment env) Identity in
  ({| joints := js; transforms := tfs |}, env, log).

(** [KDLEnv::getState(joint_names, joint_values) const], for a vector of
    values (the overload taking an [Eigen] vector runs the same loop). *)
Definition getState_vector (joint_names : list string) (joint_values : list double)
    : Method (outcome EnvState) := λ env,
  let state := current_state_ env in
  let jnt_array := kdl_jnt_array_ env in
  match applyJoints env joint_names joint_values (joints state, jnt_array, []) with
  | Returns (js, q, log) =>
      let tfs := calculateTransforms env (transforms state) q (getRootSegment env) Identity in
      (Returns {| joints := js; transforms := tfs |}, env, log)
  | AssertionFailed => (AssertionFailed, env, [])
  | OutOfRange => (OutOfRange, env, [])
  end.

(** [KDLEnv::addAttachableObject] *)
Definition addAttachableObject (attachable_object : AttachableObject)
    : Method unit := λ env,
  let name := ao_name attachable_object in
  let replacing := bool_decide (is_Some (attachable_objects_ env !! name)) in
  let dm := if replacing then removeCollisionObject (discrete_manager_ env) name
            else discrete_manager_ env in
  let cm := if replacing then removeCollisionObject (continuous_manager_ env) name
            else continuous_manager_ env in
  (tt,
   {| kdl_tree_ := kdl_tree_ env;
      joint_to_qnr_ := joint_to_qnr_ env;
      kdl_jnt_array_ := kdl_jnt_array_ env;
      current_state_ := current_state_ env;
      link_names_ := link_names_ env;
      active_link_names_ := active_link_names_ env;
      attachable_objects_ := <[name := attachable_object]> (attachable_objects_ env);
      attached_bodies_ := attached_bodies_ env;
      allowed_collision_matrix_ := allowed_collision_matrix_ env;
      discrete_manager_ :=
        addCollisionObject dm name (ao_collision_shapes attachable_object) false;
      continuous_manager_ :=
        addCollisionObject cm name (ao_collision_shapes attachable_object) false |},
   if replacing then [(ROS_DEBUG, "Replacing attachable object " +:+ name +:+ "!")]
   else []).

(** [KDLEnv::removeAttachableObject] *)
Definition removeAttachableObject (name : string) : Method unit := λ env,
  if bool_decide (is_Some (attachable_objects_ env !! name)) then
    (tt,
     {| kdl_tree_ := kdl_tree_ env;
        joint_to_qnr_ := joint_to_qnr_ env;
        kdl_jnt_array_ := kdl_jnt_array_ env;
        current_state_ := current_state_ env;
        link_names_ := link_names_ env;
        active_link_names_ := active_link_names_ env;
        attachable_objects_ := delete name (attachable_objects_ env);
        attached_bodies_ := attached_bodies_ env;
        allowed_collision_matrix_ := allowed_collision_matrix_ env;
        discrete_manager_ := removeCollisionObject (discrete_manager_ env) name;
        continuous_manager_ := removeCollisionObject (continuous_manager_ env) name |},
     [])
  else (tt, env, []).

(** [KDLEnv::attachBody] *)
Definition attachBody (attached_body_info : AttachedBodyInfo) : Method unit := λ env,
  let name := object_name attached_body_info in
  let parent := parent_link_name attached_body_info in
  if bool_decide (is_Some (attached_bodies_ env !! name)) then
    (tt, env,
     [(ROS_DEBUG, "Tried to attached object " +:+ name +:+ " which is already attached!")])
  else if bool_decide (attachable_objects_ env !! name = None) then
    (tt, env,
     [(ROS_DEBUG, "Tried to attached object " +:+ name +:+ " which does not exist!")])
  else if contains (link_names_ env) name then
    (tt, env,
     [(ROS_DEBUG,
       "Tried to attached object " +:+ name +:+ " with the same name as an existing link!")])
  else
    let link_names := link_names_ env ++ [name] in
    let active_link_names :=
      if contains (active_link_names_ env) parent
      then active_link_names_ env ++ [name] else active_link_names_ env in
    let attached_bodies := <[name := attached_body_info]> (attached_bodies_ env) in
    let dm := enableCollisionObject (discrete_manager_ env) name in
    let cm := enableCollisionObject (continuous_manager_ env) name in
    let env1 :=
      {| kdl_tree_ := kdl_tree_ env;
         joint_to_qnr_ := joint_to_qnr_ env;
         kdl_jnt_array_ := kdl_jnt_array_ env;
         current_state_ := current_state_ env;
         link_names_ := link_names;
         active_link_names_ := active_link_names;
         attachable_objects_ := attachable_objects_ env;
         attached_bodies_ := attached_bodies;
         allowed_collision_matrix_ := allowed_collision_matrix_ env;
         discrete_manager_ := dm;
         continuous_manager_ := cm |} in
    let tfs :=
      calculateTransforms env1 (transforms (current_state_ env))
        (kdl_jnt_array_ env) (getRootSegment env) Identity in
    let dm := setCollisionObjectsTransform dm name (at_key tfs name) in
    let cm := setCollisionObjectsTransform cm name (at_key tfs name) in
    (tt,
     {| kdl_tree_ := kdl_tree_ env;
        joint_to_qnr_ := joint_to_qnr_ env;
        kdl_jnt_array_ := kdl_jnt_array_ env;
        current_state_ :=
          {| joints := joints (current_state_ env); transforms := touch tfs name |};
        link_names_ := link_names;
        active_link_names_ := active_link_names;
        attachable_objects_ := attachable_objects_ env;
        attached_bodies_ := attached_bodies;
        allowed_collision_matrix_ := allowed_collision_matrix_ env;
        discrete_manager_ := setActiveCollisionObjects dm active_link_names;
        continuous_manager_ := setActiveCollisionObjects cm active_link_names |},
     []).

(** [v.erase(std::remove(v.begin(), v.end(), name), v.end())] *)
Definition erase_name (v : list string) (name : string) : list string :=
  filter (λ x, x ≠ name) v.

(** [KDLEnv::detachBody] *)
Definition detachBody (name : string) : Method unit := λ env,
  if bool_decide (is_Some (attached_bodies_ env !! name)) then
    let link_names := erase_name (link_names_ env) name in
    let active_link_names := erase_name (active_link_names_ env) name in
    let dm := setActiveCollisionObjects (discrete_manager_ env) active_link_names in
    let cm := setActiveCollisionObjects (continuous_manager_ env) active_link_names in
    (tt,
     {| kdl_tree_ := kdl_tree_ env;
        joint_to_qnr_ := joint_to_qnr_ env;
        kdl_jnt_array_ := kdl_jnt_array_ env;
        current_state_ :=
          {| joints := joints (current_state_ env);
             transforms := delete name (transforms (current_state_ env)) |};
        link_names_ := link_names;
        active_link_names_ := active_link_names;
        attachable_objects_ := attachable_objects_ env;
        attached_bodies_ := delete name (attached_bodies_ env);
        allowed_collision_matrix_ := allowed_collision_matrix_ env;
        discrete_manager_ := disableCollisionObject dm name;
        continuous_manager_ := disableCollisionObject cm name |},
     [])
  else (tt, env, []).

(** [KDLEnv::defaultIsContactAllowedFn] *)
Definition defaultIsContactAllowedFn (env : KDLEnv) (link_name1 link_name2 : string)
    : bool :=
  if match allowed_collision_matrix_ env with
     | Some acm => isCollisionAllowed acm link_name1 link_name2
     | None => false
     end
  then true
  else
    match attached_bodies_ env !! link_name1, attached_bodies_ env !! link_name2 with
    | None, None => false
    | None, Some it2 =>
        if contains (touch_links it2) link_name1
           || bool_decide (link_name1 = parent_link_name it2)
        then true else false
    | Some it1, _ =>
        if contains (touch_links it1) link_name2
           || bool_decide (link_name2 = parent_link_name it1)
        then true else false
    end.

(** The predicate the contact managers apply to a pair of names:
    [isContactAllowed] with the environment's function
    ([is_contact_allowed_fn_], bound to [defaultIsContactAllowedFn]). *)
Definition isAllowed (env : KDLEnv) (name1 name2 : string) : bool :=
  isContactAllowed name1 name2 (Some (defaultIsContactAllowedFn env)) false.

End Methods.

(* ================================================================== *)
(** * Concrete inputs *)

(** Doubles: 1.0, 2.0 and -1.0 in binary64 (mantissa [2^52]). *)
Definition d_one : double := S754_finite false 4503599627370496 (-52).
Definition d_two : double := S754_finite false 4503599627370496 (-51).
Definition d_minus_one : double := S754_finite true 4503599627370496 (-52).
Definition d_nan : double := S754_nan.

Definition origin : Vector3d := (double_zero, double_zero, double_zero).

(** A contact between [box] and [table] at the given distance. *)
Definition contact_at (d : double) : ContactResult :=
  {| distance := d; type_id := (0, 0)%Z; link_names := ("box", "table");
     nearest_points := (origin, origin); normal := origin;
     cc_time := double_zero; cc_type := CCType_None |}.

Definition box_table : ObjectPairKey := getObjectPairKey "table" "box".

(** A backend whose hull computation always fails. *)
Definition failing_backend : HullBackend :=
  {| to_btScalar := id; of_btScalar := id;
     compute := λ _ _ _,
       (d_minus_one, {| conv_vertices := []; conv_edges := []; conv_faces := [] |}) |}.

(** A backend that answers with the two-sided triangle on the vertices 0, 1
    and 2: half-edges 0:(0,1) 1:(1,0) 2:(1,2) 3:(2,1) 4:(2,0) 5:(0,2), each
    next to its reverse, and one face starting at edge 0, one at edge 1. *)
Definition triangle_hull : btConvexHullComputer :=
  {| conv_vertices :=
       [(double_zero, double_zero, double_zero);
        (d_one, double_zero, double_zero);
        (double_zero, d_one, double_zero)];
     conv_edges :=
       [ {| e_next := 5; e_reverse := 1; e_targetVertex := 1 |};
         {| e_next := 1; e_reverse := -1; e_targetVertex := 0 |};
         {| e_next := -1; e_reverse := 1; e_targetVertex := 2 |};
         {| e_next := 1; e_reverse := -1; e_targetVertex := 1 |};
         {| e_next := -1; e_reverse := 1; e_targetVertex := 0 |};
         {| e_next := -5; e_reverse := -1; e_targetVertex := 2 |} ]%Z;
     conv_faces := [0; 1]%Z |}.

Definition triangle_backend : HullBackend :=
  {| to_btScalar := id; of_btScalar := id;
     compute := λ _ _ _, (double_zero, triangle_hull) |}.

(** Two raw contacts of the pair (box, table): the first without a usable
    distance, the second at distance 1. *)
Definition nan_then_one : list (ObjectPairKey * ContactResult) :=
  [(box_table, contact_at d_nan); (box_table, contact_at d_one)].

(* ================================================================== *)
(** * Statements examined below, and auxiliary notions *)

(** "Processing the contact records nothing": the call returns and the
    result map is the one before the call. *)
Definition records_nothing (cdata : ContactTestData) (contact : ContactResult)
    (key : ObjectPairKey) (found : bool) : Prop :=
  ∃ cdata' r, processResult cdata contact key found = Returns (cdata', r) ∧
              cd_res cdata' = cd_res cdata.

(** "After a CLOSEST query the contact stored for [key] has a distance less
    than or equal to that of every contact processed for [key]". *)
Definition stored_below_all (fn : IsContactAllowedFn)
    (raw : list (ObjectPairKey * ContactResult)) (key : ObjectPairKey) : Prop :=
  ∃ cdata stored,
    contactTest fn CLOSEST raw = Returns cdata ∧
    cd_res cdata !! key = Some [stored] ∧
    ∀ c, c ∈ contacts_of key raw → double_leb (distance stored) (distance c) = true.

(** One step of CLOSEST on the contact stored for a pair, if any. *)
Definition absorb (stored : option ContactResult) (new : ContactResult)
    : option ContactResult :=
  Some (match stored with Some s => closer s new | None => new end).

(** The single contact a CLOSEST result map holds for a pair, if any. *)
Definition stored_contact (cdata : ContactTestData) (key : ObjectPairKey)
    : option ContactResult :=
  cd_res cdata !! key ≫= head.

(** The environment a method call leaves behind. *)
Definition env_after `{Isometry} {A : Type} (r : A * KDLEnv * list LogEntry) : KDLEnv :=
  r.1.2.

(** "Only the given joints are overlaid", pointwise: the value the call
    gives to the joint [name], i.e. the last value listed for [name],
    provided the tree has a joint of that name. *)
Fixpoint given_joint `{Isometry} (env : KDLEnv) (joint_names : list string)
    (joint_values : list double) (name : string) : option double :=
  match joint_names, joint_values with
  | n :: names, v :: values =>
      match given_joint env names values name with
      | Some w => Some w
      | None =>
          if bool_decide (n = name ∧ is_Some (joint_to_qnr_ env !! n))
          then Some v else None
      end
  | _, _ => None
  end.

(** The value the call gives to position [i] of the joint array: the last
    value listed for a joint that the tree places at [i]. *)
Fixpoint given_index `{Isometry} (env : KDLEnv) (joint_names : list string)
    (joint_values : list double) (i : nat) : option double :=
  match joint_names, joint_values with
  | n :: names, v :: values =>
      match given_index env names values i with
      | Some w => Some w
      | None =>
          if bool_decide (joint_to_qnr_ env !! n = Some i) then Some v else None
      end
  | _, _ => None
  end.

(** The invariant that [init] establishes and the methods keep:
    - both managers hold the environment's list of active links;
    - active links are links, and so are the segments of the tree;
    - no attached body carries the name of a segment ([attachBody] refuses
      a name that is already a link name);
    - an attachable object that is not attached is disabled in both
      managers ([addAttachableObject] adds it disabled, [detachBody]
      disables it). *)
Definition env_ok `{Isometry} (env : KDLEnv) : Prop :=
  cm_active (discrete_manager_ env) = active_link_names_ env ∧
  cm_active (continuous_manager_ env) = active_link_names_ env ∧
  (∀ name, name ∈ active_link_names_ env → name ∈ link_names_ env) ∧
  (∀ name, name ∈ segment_names (kdl_tree_ env) → name ∈ link_names_ env) ∧
  (∀ name, is_Some (attached_bodies_ env !! name) →
           name ∉ segment_names (kdl_tree_ env)) ∧
  (∀ name o, is_Some (attachable_objects_ env !! name) →
             attached_bodies_ env !! name = None →
             cm_objects (discrete_manager_ env) !! name = Some o ∨
             cm_objects (continuous_manager_ env) !! name = Some o →
             co_enabled o = false).

(** The enabled flag of every object of a manager. *)
Definition enabled_state `{Isometry} (cm : ContactManager) : gmap string bool :=
  co_enabled <$> cm_objects cm.

(** The calls a client can make on the environment, and the environment a
    call leaves behind. *)
Section Calls.
Context `{Isometry}.

Inductive Call :=
  | SetStateMap (joint_map : gmap string double)
  | SetStateVector (joint_names : list string) (joint_values : list double)
  | GetStateMap (joint_map : gmap string double)
  | GetStateVector (joint_names : list string) (joint_values : list double)
  | AddAttachableObject (attachable_object : AttachableObject)
  | RemoveAttachableObject (name : string)
  | AttachBody (attached_body_info : AttachedBodyInfo)
  | DetachBody (name : string).

Definition call (env : KDLEnv) (c : Call) : KDLEnv :=
  match c with
  | SetStateMap joint_map => env_after (setState_map joint_map env)
  | SetStateVector names values => env_after (setState_vector names values env)
  | GetStateMap joint_map => env_after (getState_map joint_map env)
  | GetStateVector names values => env_after (getState_vector names values env)
  | AddAttachableObject obj => env_after (addAttachableObject obj env)
  | RemoveAttachableObject name => env_after (removeAttachableObject name env)
  | AttachBody info => env_after (attachBody info env)
  | DetachBody name => env_after (detachBody name env)
  end.

End Calls.

(** A two-link mechanism on a line: the fixed root [base_link] and the link
    [arm], moved by the joint [shoulder]; the arm sits at 1 when the joint is
    at zero and at 2 otherwise. *)
Definition arm_element : TreeElement :=
  {| seg_name := "arm"; seg_q_nr := 0;
     seg_pose := λ q, match q with S754_zero _ => 1%Z | _ => 2%Z end;
     seg_children := [] |}.

Definition base_element : TreeElement :=
  {| seg_name := "base_link"; seg_q_nr := 0; seg_pose := λ _, 0%Z;
     seg_children := [arm_element] |}.

Definition link_object : CollisionObject :=
  {| co_shapes := [0]; co_enabled := true; co_pose1 := 0%Z; co_pose2 := 0%Z |}.

Definition example_manager : ContactManager :=
  {| cm_objects := <["base_link" := link_object]> (<["arm" := link_object]> ∅);
     cm_active := ["arm"] |}.

Definition example_env : KDLEnv :=
  {| kdl_tree_ := base_element;
     joint_to_qnr_ := {["shoulder" := 0]};
     kdl_jnt_array_ := [double_zero];
     current_state_ :=
       {| joints := {["shoulder" := double_zero]};
          transforms :=
            calculateTransformsHelper ∅ [double_zero] (Some base_element) 0%Z |};
     link_names_ := ["base_link"; "arm"];
     active_link_names_ := ["arm"];
     attachable_objects_ := ∅;
     attached_bodies_ := ∅;
     allowed_collision_matrix_ := Some ∅;
     discrete_manager_ := example_manager;
     continuous_manager_ := example_manager |}.

Definition box_object : AttachableObject :=
  {| ao_name := "box"; ao_collision_shapes := [1] |}.
Definition tool_object : AttachableObject :=
  {| ao_name := "tool"; ao_collision_shapes := [2] |}.

(** The box rides on the arm and may touch the tool; the tool rides on the
    arm as well and lists no touch links. *)
Definition box_info : AttachedBodyInfo :=
  {| object_name := "box"; parent_link_name := "arm"; transform := 5%Z;
     touch_links := ["tool"] |}.
Definition tool_info : AttachedBodyInfo :=
  {| object_name := "tool"; parent_link_name := "arm"; transform := 7%Z;
     touch_links := [] |}.

(** The environment after both objects were added to the catalogue... *)
Definition env_with_objects : KDLEnv :=
  env_after (addAttachableObject tool_object
               (env_after (addAttachableObject box_object example_env))).

(** ... and after both were attached. *)
Definition env_with_bodies : KDLEnv :=
  env_after (attachBody tool_info (env_after (attachBody box_info env_with_objects))).


(* ================================================================== *)
(** * Properties of contact_checker_common.h *)

Section ContactChecker.

Lemma contains_true (v : list string) (name : string) :
  contains v name = true ↔ name ∈ v.
Proof. unfold contains. apply bool_decide_eq_true. Qed.

Lemma contains_false (v : list string) (name : string) :
  contains v name = false ↔ name ∉ v.
Proof. unfold contains. apply bool_decide_eq_false. Qed.

(** C10. With an empty list of active links every link is active; a link
    is inactive exactly when the list is non-empty and does not hold its
    name. *)
Theorem isLinkActive_empty_means_all (active : list string) (name : string) :
  isLinkActive [] name = true ∧
  (isLinkActive active name = false ↔ active ≠ [] ∧ name ∉ active).
Proof.
  split; [reflexivity|].
  unfold isLinkActive. rewrite orb_false_iff, contains_false.
  by rewrite bool_decide_eq_false.
Qed.

(** ** FIRST *)

Lemma processResult_FIRST_new cdata contact key :
  cd_type cdata = FIRST →
  cd_res cdata !! key = None →
  processResult cdata contact key false
  = Returns (set_res (set_done cdata true) (<[key := [contact]]> (cd_res cdata)),
             Some contact).
Proof.
  intros Hty Hkey. unfold processResult.
  rewrite decide_True by done. cbn [negb set_done cd_res]. by rewrite Hkey.
Qed.

Lemma processContacts_done cdata raw :
  cd_done cdata = true → processContacts cdata raw = Returns cdata.
Proof. intros Hd. destruct raw as [|[key contact] rest]; simpl; by rewrite ?Hd. Qed.

Lemma contact_count_singleton key (v : ContactResultVector) :
  contact_count {[key := v]} = length v.
Proof. unfold contact_count. rewrite map_fold_singleton. lia. Qed.

(** C2. Under FIRST a query records at most one contact in the whole result
    map: the first contact processed is stored under its pair key, [done] is
    set by that very call of [processResult], and whatever follows in the
    query (or would follow, were more contacts fed to it) records nothing. *)
Theorem FIRST_records_at_most_one (fn : IsContactAllowedFn)
    (raw : list (ObjectPairKey * ContactResult)) :
  ∃ cdata,
    contactTest fn FIRST raw = Returns cdata ∧
    contact_count (cd_res cdata) ≤ 1 ∧
    match raw with
    | [] => cd_res cdata = ∅ ∧ cd_done cdata = false
    | (key, contact) :: _ =>
        processResult (newContactTestData fn FIRST) contact key false
          = Returns (cdata, Some contact) ∧
        cd_res cdata = {[key := [contact]]} ∧ cd_done cdata = true ∧
        ∀ more, processContacts cdata more = Returns cdata
    end.
Proof.
  unfold contactTest. destruct raw as [|[key contact] rest].
  - eexists; split; [reflexivity|]. simpl. split; [|done].
    unfold contact_count. rewrite map_fold_empty. lia.
  - cbn [processContacts newContactTestData cd_done cd_res].
    rewrite lookup_empty, bool_decide_eq_false_2 by (by intros [? ?]).
    rewrite processResult_FIRST_new by done.
    rewrite processContacts_done by done.
    eexists; split; [reflexivity|]. cbn.
    change (<[key:=[contact]]> ∅) with ({[key := [contact]]} : gmap _ _).
    rewrite contact_count_singleton. simpl. repeat split; auto.
    intros more. by apply processContacts_done.
Qed.

(** ** Policies other than FIRST, ALL and CLOSEST *)

Lemma set_res_id cdata : set_res cdata (cd_res cdata) = cdata.
Proof. by destruct cdata. Qed.

Lemma processResult_other_found cdata contact key :
  cd_type cdata ≠ FIRST → cd_type cdata ≠ ALL → cd_type cdata ≠ CLOSEST →
  is_Some (cd_res cdata !! key) →
  processResult cdata contact key true = Returns (cdata, None).
Proof.
  intros HF HA HC [v Hv]. unfold processResult. cbn [negb].
  rewrite decide_False by done. rewrite Hv. cbn [default].
  rewrite insert_id by done. rewrite set_res_id.
  by destruct (cd_type cdata).
Qed.

Lemma processResult_not_FIRST_new cdata contact key :
  cd_type cdata ≠ FIRST →
  cd_res cdata !! key = None →
  processResult cdata contact key false
  = Returns (set_res cdata (<[key := [contact]]> (cd_res cdata)), Some contact).
Proof.
  intros HF Hnone. unfold processResult. cbn [negb].
  rewrite decide_False by done. by rewrite Hnone.
Qed.

(** C4, as the code has it. For a policy other than FIRST, ALL and CLOSEST
    a contact whose pair key already has stored results records nothing (the
    call returns [nullptr] and the context is unchanged), whereas a contact
    whose pair key has no stored results is recorded as that pair's only
    result, as under ALL and CLOSEST, and [done] stays as it was. *)
Theorem other_policy_records_first_contact_only cdata contact key :
  cd_type cdata ≠ FIRST → cd_type cdata ≠ ALL → cd_type cdata ≠ CLOSEST →
  (is_Some (cd_res cdata !! key) →
     processResult cdata contact key true = Returns (cdata, None)) ∧
  (cd_res cdata !! key = None →
     processResult cdata contact key false
     = Returns (set_res cdata (<[key := [contact]]> (cd_res cdata)), Some contact)).
Proof.
  intros HF HA HC. split.
  - by apply processResult_other_found.
  - by apply processResult_not_FIRST_new.
Qed.

Lemma other_policy_witness :
  processResult (newContactTestData None LIMITED) (contact_at d_one) box_table false
  = Returns (set_res (newContactTestData None LIMITED)
               (<[box_table := [contact_at d_one]]> ∅), Some (contact_at d_one)).
Proof.
  apply (other_policy_records_first_contact_only
           (newContactTestData None LIMITED) (contact_at d_one) box_table);
    [discriminate | discriminate | discriminate | reflexivity].
Defined.

(** C4 as stated fails: under LIMITED the first contact of a pair is
    recorded. *)
Lemma LIMITED_records_new_pair :
  cd_type (newContactTestData None LIMITED) ≠ FIRST ∧
  cd_type (newContactTestData None LIMITED) ≠ ALL ∧
  cd_type (newContactTestData None LIMITED) ≠ CLOSEST ∧
  processResult (newContactTestData None LIMITED) (contact_at d_one) box_table false
    = Returns (set_res (newContactTestData None LIMITED)
                 {[box_table := [contact_at d_one]]}, Some (contact_at d_one)) ∧
  ¬ records_nothing (newContactTestData None LIMITED) (contact_at d_one) box_table false.
Proof.
  repeat split; try discriminate.
  intros (cdata' & r & Hcall & Hres).
  rewrite processResult_not_FIRST_new in Hcall by done. injection Hcall as <- _.
  cbn [set_res cd_res newContactTestData] in Hres.
  apply (f_equal (λ m : gmap (string * string) (list ContactResult), m !! box_table)) in Hres.
  rewrite lookup_insert_eq, lookup_empty in Hres. discriminate.
Qed.

End ContactChecker.

(** ** The order on doubles *)

Section Doubles.

Lemma SFcompare_finite_cases (s1 s2 : bool) (m1 m2 : positive) (e1 e2 : Z) :
  SFcompare (S754_finite s1 m1 e1) (S754_finite s2 m2 e2) =
  Some (if s1
        then if s2
             then match (e1 ?= e2)%Z with
                  | Eq => CompOpp (m1 ?= m2)%positive | Lt => Gt | Gt => Lt end
             else Lt
        else if s2 then Gt
             else match (e1 ?= e2)%Z with
                  | Eq => (m1 ?= m2)%positive | Lt => Lt | Gt => Gt end).
Proof. reflexivity. Qed.

Ltac order_cases :=
  repeat match goal with
  | |- context [(?a ?= ?b)%Z] => destruct (Z.compare_spec a b)
  | H : context [(?a ?= ?b)%Z] |- _ => destruct (Z.compare_spec a b)
  | |- context [(?a ?= ?b)%positive] => destruct (Pos.compare_spec a b)
  | H : context [(?a ?= ?b)%positive] |- _ => destruct (Pos.compare_spec a b)
  end;
  simpl in *; try done; try lia.

Lemma double_ltb_irrefl (a : double) : double_ltb a a = false.
Proof.
  unfold double_ltb, SFltb. destruct a as [[]|[]| |[] m e];
    rewrite ?SFcompare_finite_cases; try done; order_cases.
Qed.

Lemma double_ltb_trans (a b c : double) :
  double_ltb a b = true → double_ltb b c = true → double_ltb a c = true.
Proof.
  unfold double_ltb, SFltb.
  destruct a as [[]|[]| |[] ma ea], b as [[]|[]| |[] mb eb], c as [[]|[]| |[] mc ec];
    rewrite ?SFcompare_finite_cases; try (simpl; done);
    intros H1 H2; order_cases.
Qed.

Lemma double_leb_of_not_ltb (a b : double) :
  is_nan a = false → is_nan b = false →
  double_ltb b a = false → double_leb a b = true.
Proof.
  unfold double_ltb, double_leb, SFltb, SFleb.
  destruct a as [[]|[]| |[] ma ea], b as [[]|[]| |[] mb eb];
    rewrite ?SFcompare_finite_cases; try (simpl; done);
    intros _ _ H1; order_cases.
Qed.

End Doubles.

(** ** CLOSEST *)

Section Closest.

Lemma closer_below_stored (d : double) (stored new : ContactResult) :
  double_ltb d (distance stored) = false →
  double_ltb d (distance (closer stored new)) = false.
Proof.
  intros Hs. unfold closer.
  destruct (double_ltb (distance new) (distance stored)) eqn:Hlt; [|done].
  destruct (double_ltb d (distance new)) eqn:Hd; [|done].
  by rewrite (double_ltb_trans _ _ _ Hd Hlt) in Hs.
Qed.

Lemma closer_below_new (stored new : ContactResult) :
  double_ltb (distance new) (distance (closer stored new)) = false.
Proof.
  unfold closer.
  destruct (double_ltb (distance new) (distance stored)) eqn:Hlt; [|done].
  apply double_ltb_irrefl.
Qed.

Lemma foldl_closer_below_start (d : double) (cs : list ContactResult) (c0 : ContactResult) :
  double_ltb d (distance c0) = false →
  double_ltb d (distance (foldl closer c0 cs)) = false.
Proof.
  revert c0. induction cs as [|x cs IH]; intros c0 Hd; [done|].
  simpl. apply IH. by apply closer_below_stored.
Qed.

Lemma foldl_closer_minimal (cs : list ContactResult) (c0 c : ContactResult) :
  c ∈ c0 :: cs →
  double_ltb (distance c) (distance (foldl closer c0 cs)) = false.
Proof.
  revert c0. induction cs as [|x cs IH]; intros c0 Hin.
  - apply list_elem_of_singleton in Hin as ->. apply double_ltb_irrefl.
  - simpl. apply elem_of_cons in Hin as [->|Hin].
    + apply foldl_closer_below_start, closer_below_stored, double_ltb_irrefl.
    + apply elem_of_cons in Hin as [->|Hin].
      * apply foldl_closer_below_start, closer_below_new.
      * apply IH. by right.
Qed.

Lemma foldl_closer_elem (cs : list ContactResult) (c0 : ContactResult) :
  foldl closer c0 cs ∈ c0 :: cs.
Proof.
  revert c0. induction cs as [|x cs IH]; intros c0; simpl; [by left|].
  specialize (IH (closer c0 x)). apply elem_of_cons in IH as [->|IH].
  - unfold closer. destruct (double_ltb _ _); [right; left | left].
  - by do 2 right.
Qed.

Lemma closest_spec_absorb (cs : list ContactResult) :
  closest_spec cs = foldl absorb None cs.
Proof.
  destruct cs as [|c cs]; [done|]. simpl.
  revert c. induction cs as [|x cs IH]; intros c; [done|]. simpl. apply IH.
Qed.

Lemma contacts_of_cons key k c raw :
  contacts_of key ((k, c) :: raw)
  = if decide (k = key) then c :: contacts_of key raw else contacts_of key raw.
Proof.
  unfold contacts_of. rewrite filter_cons. simpl.
  destruct (decide (k = key)); done.
Qed.

(** One CLOSEST step on a result map that holds one contact per pair. *)
Lemma processResult_CLOSEST_step cdata contact key :
  cd_type cdata = CLOSEST →
  (∀ k v, cd_res cdata !! k = Some v → ∃ c, v = [c]) →
  ∃ cdata' r,
    processResult cdata contact key (bool_decide (is_Some (cd_res cdata !! key)))
      = Returns (cdata', r) ∧
    cd_type cdata' = CLOSEST ∧ cd_done cdata' = cd_done cdata ∧
    (∀ k v, cd_res cdata' !! k = Some v → ∃ c, v = [c]) ∧
    (∀ k, stored_contact cdata' k
          = if decide (key = k) then absorb (stored_contact cdata k) contact
            else stored_contact cdata k).
Proof.
  intros Hty Hone. unfold stored_contact.
  destruct (cd_res cdata !! key) as [v|] eqn:Hkey.
  - rewrite bool_decide_eq_true_2 by eauto.
    destruct (Hone _ _ Hkey) as [dr0 ->].
    unfold processResult. cbn [negb]. rewrite decide_False by congruence.
    rewrite Hty, Hkey. cbn [default from_option id].
    destruct (double_ltb (distance contact) (distance dr0)) eqn:Hlt;
      (do 2 eexists; split; [reflexivity|]; cbn [set_res cd_type cd_done cd_res];
       split; [done|]; split; [done|]; split;
       [ intros k v; rewrite lookup_insert; case_decide; [intros [= <-]; eauto | apply Hone]
       | intros k; rewrite lookup_insert; case_decide;
           [subst; rewrite Hkey; simpl; unfold absorb, closer; by rewrite Hlt | done] ]).
  - rewrite bool_decide_eq_false_2 by (by intros [? ?]).
    rewrite processResult_not_FIRST_new by congruence.
    do 2 eexists; split; [reflexivity|]. cbn [set_res cd_type cd_done cd_res].
    split; [done|]; split; [done|]; split.
    + intros k v. rewrite lookup_insert. case_decide; [intros [= <-]; eauto | apply Hone].
    + intros k. rewrite lookup_insert. case_decide; [subst; by rewrite Hkey | done].
Qed.

Lemma processContacts_CLOSEST raw : ∀ cdata,
  cd_type cdata = CLOSEST → cd_done cdata = false →
  (∀ k v, cd_res cdata !! k = Some v → ∃ c, v = [c]) →
  ∃ cdata',
    processContacts cdata raw = Returns cdata' ∧
    cd_done cdata' = false ∧
    (∀ k v, cd_res cdata' !! k = Some v → ∃ c, v = [c]) ∧
    (∀ k, stored_contact cdata' k
          = foldl absorb (stored_contact cdata k) (contacts_of k raw)).
Proof.
  induction raw as [|[key contact] raw IH]; intros cdata Hty Hdone Hone.
  - exists cdata. done.
  - cbn [processContacts]. rewrite Hdone.
    destruct (processResult_CLOSEST_step cdata contact key Hty Hone)
      as (cdata1 & r & -> & Hty1 & Hdone1 & Hone1 & Hst1).
    destruct (IH cdata1 Hty1 (eq_trans Hdone1 Hdone) Hone1)
      as (cdata' & -> & Hdone' & Hone' & Hst').
    exists cdata'. repeat split; [done..|].
    intros k. rewrite Hst', Hst1, contacts_of_cons.
    destruct (decide (key = k)); done.
Qed.


Lemma CLOSEST_query (fn : IsContactAllowedFn) (raw : list (ObjectPairKey * ContactResult)) :
  ∃ cdata,
    contactTest fn CLOSEST raw = Returns cdata ∧
    cd_done cdata = false ∧
    ∀ key, cd_res cdata !! key = (λ c, [c]) <$> closest_spec (contacts_of key raw).
Proof.
  destruct (processContacts_CLOSEST raw (newContactTestData fn CLOSEST))
    as (cdata & Hq & Hdone & Hone & Hst); [done| done | |].
  { intros k v. cbn. by rewrite lookup_empty. }
  exists cdata. split; [done|]. split; [done|]. intros key.
  specialize (Hst key).
  change (stored_contact (newContactTestData fn CLOSEST) key) with (@None ContactResult) in Hst.
  rewrite <- closest_spec_absorb in Hst.
  rewrite <- Hst. unfold stored_contact.
  destruct (cd_res cdata !! key) as [v|] eqn:Hv; [|done].
  destruct (Hone _ _ Hv) as [c ->]. done.
Qed.

(** C3, as the code has it. Under CLOSEST a query ends with exactly one
    contact for every pair that had raw contacts and none for any other
    pair: the first contact of the pair, replaced by a later one only when
    the later distance is strictly smaller ([closest_spec]).  The stored
    contact is one of the pair's raw contacts, no raw contact of the pair
    has a strictly smaller distance, and the stored distance is less than or
    equal to the distance of every raw contact of the pair whenever neither
    of the two distances is NaN. *)
Theorem CLOSEST_keeps_closest_per_pair (fn : IsContactAllowedFn)
    (raw : list (ObjectPairKey * ContactResult)) :
  ∃ cdata,
    contactTest fn CLOSEST raw = Returns cdata ∧
    ∀ key,
      cd_res cdata !! key = (λ c, [c]) <$> closest_spec (contacts_of key raw) ∧
      ∀ stored c,
        closest_spec (contacts_of key raw) = Some stored →
        c ∈ contacts_of key raw →
        stored ∈ contacts_of key raw ∧
        double_ltb (distance c) (distance stored) = false ∧
        (is_nan (distance stored) = false → is_nan (distance c) = false →
         double_leb (distance stored) (distance c) = true).
Proof.
  destruct (CLOSEST_query fn raw) as (cdata & Hq & _ & Hres).
  exists cdata. split; [done|]. intros key. split; [apply Hres|].
  intros stored c Hst Hc.
  destruct (contacts_of key raw) as [|c0 cs]; [done|].
  injection Hst as <-.
  assert (Hmin := foldl_closer_minimal cs c0 c Hc).
  split; [apply foldl_closer_elem|]. split; [done|].
  intros Hs Hcn. by apply double_leb_of_not_ltb.
Qed.

(** C3 as stated fails on a NaN distance: a first contact whose distance
    is NaN is stored and never replaced ([x < NaN] is false for every [x]),
    and NaN is not [<=] the later contact's distance 1. *)
Lemma CLOSEST_nan_stays_stored :
  (∃ cdata, contactTest None CLOSEST nan_then_one = Returns cdata ∧
            cd_res cdata !! box_table = Some [contact_at d_nan]) ∧
  double_leb (distance (contact_at d_nan)) (distance (contact_at d_one)) = false ∧
  ¬ stored_below_all None nan_then_one box_table.
Proof.
  destruct (CLOSEST_query None nan_then_one) as (cdata' & Hq' & _ & Hres').
  split; [|split].
  - exists cdata'. split; [done|]. by rewrite Hres'.
  - reflexivity.
  - intros (cdata & stored & Hq & Hres & Hall).
    rewrite Hq in Hq'. injection Hq' as <-.
    rewrite Hres' in Hres. vm_compute in Hres. injection Hres as <-.
    specialize (Hall (contact_at d_one)).
    assert (Hin : contact_at d_one ∈ contacts_of box_table nan_then_one).
    { vm_compute. right. left. }
    apply Hall in Hin. vm_compute in Hin. discriminate.
Qed.

End Closest.

Section ConvexHull.

(** C9. When the backend's [compute] reports a negative value,
    [createConvexHull] returns (nothing is thrown, whatever the fuel) a
    negative face count, leaves both output containers empty, whatever they
    held before, and logs one error. *)
Theorem createConvexHull_backend_failure `{HullBackend} (fuel : nat)
    (vertices : list Vector3d) (faces : list Z) (input : list Vector3d)
    (shrink shrinkClamp : double) :
  double_ltb
    (compute (toBulletPoints input) (to_btScalar shrink) (to_btScalar shrinkClamp)).1
    double_zero = true →
  ∃ r, createConvexHull fuel vertices faces input shrink shrinkClamp = Some (Returns r) ∧
       (hr_return r < 0)%Z ∧ hr_vertices r = [] ∧ hr_faces r = [] ∧
       hr_log r = [(ROS_ERROR, "Failed to create convex hull")].
Proof.
  intros Hneg. unfold createConvexHull.
  destruct (compute _ _ _) as [val conv]. cbn [fst] in Hneg. rewrite Hneg.
  eexists. split; [reflexivity|]. cbn. repeat split; lia.
Qed.

Lemma createConvexHull_backend_failure_witness :
  ∃ r, createConvexHull (H := failing_backend) 0 [origin] [3%Z] [origin; origin]
         d_minus_one d_minus_one = Some (Returns r) ∧
       (hr_return r < 0)%Z ∧ hr_vertices r = [] ∧ hr_faces r = [] ∧
       hr_log r = [(ROS_ERROR, "Failed to create convex hull")].
Proof.
  apply (createConvexHull_backend_failure (H := failing_backend)). reflexivity.
Defined.

(** On success the faces come out as a count followed by the vertex
    indices of the face, here for the two faces of the two-sided triangle. *)
Example createConvexHull_triangle :
  createConvexHull (H := triangle_backend) 1 [] [] [origin] d_minus_one d_minus_one
  = Some (Returns {| hr_return := 2;
                     hr_vertices := conv_vertices triangle_hull;
                     hr_faces := [3; 0; 1; 2; 3; 1; 0; 2]%Z;
                     hr_log := [] |}).
Proof. reflexivity. Qed.

End ConvexHull.

(* ================================================================== *)
(** * Properties of kdl_env.cpp *)

Section JointUpdates.
Context `{Isometry}.

Lemma list_insert_lookup_const {A} (q : list A) (k i : nat) (v w : A) :
  (λ _, w) <$> (<[k := v]> q !! i) = (λ _, w) <$> (q !! i).
Proof.
  destruct (decide (k = i)) as [->|Hne].
  - destruct (decide (i < length q)) as [Hlt|Hge].
    + rewrite list_lookup_insert_eq by done.
      destruct (lookup_lt_is_Some_2 q i Hlt) as [x ->]. done.
    + rewrite list_insert_ge by lia. done.
  - by rewrite list_lookup_insert_ne.
Qed.

Lemma list_insert_lookup_same {A} (q : list A) (i : nat) (v : A) :
  <[i := v]> q !! i = (λ _, v) <$> (q !! i).
Proof.
  destruct (decide (i < length q)) as [Hlt|Hge].
  - rewrite list_lookup_insert_eq by done.
    destruct (lookup_lt_is_Some_2 q i Hlt) as [x ->]. done.
  - rewrite list_insert_ge by lia. rewrite lookup_ge_None_2 by lia. done.
Qed.

(** The loop reaches its end when there is a value for every name. *)
Lemma applyJoints_returns env names : ∀ values acc,
  length names ≤ length values →
  ∃ r, applyJoints env names values acc = Returns r.
Proof.
  induction names as [|n names IH]; intros values acc Hlen; [by eexists|].
  destruct values as [|v values]; simpl in Hlen; [lia|].
  simpl. apply IH. lia.
Qed.

(** What the loop leaves in the record of joints and in the joint array. *)
Lemma applyJoints_spec env names : ∀ values js q log js' q' log',
  applyJoints env names values (js, q, log) = Returns (js', q', log') →
  (∀ name, js' !! name = match given_joint env names values name with
                         | Some v => Some v
                         | None => js !! name
                         end) ∧
  (∀ i, q' !! i = match given_index env names values i with
                  | Some v => (λ _, v) <$> (q !! i)
                  | None => q !! i
                  end).
Proof.
  induction names as [|n names IH]; intros values js q log js' q' log' Hrun.
  - simpl in Hrun. injection Hrun as <- <- <-. done.
  - destruct values as [|v values]; [done|]. simpl in Hrun.
    unfold setJointValuesHelper in Hrun.
    destruct (joint_to_qnr_ env !! n) as [qnr|] eqn:Hn;
      apply IH in Hrun as [Hjs Hq]; split.
    + intros name. rewrite Hjs. simpl.
      destruct (given_joint env names values name); [done|].
      rewrite lookup_insert. rewrite Hn.
      destruct (decide (n = name)) as [->|Hne].
      * rewrite bool_decide_eq_true_2; [done|]. split; [done|]. by eexists.
      * rewrite bool_decide_eq_false_2; [done|]. by intros [? _].
    + intros i. rewrite Hq. simpl.
      destruct (given_index env names values i).
      * apply list_insert_lookup_const.
      * destruct (decide (qnr = i)) as [->|Hne].
        -- rewrite bool_decide_eq_true_2 by done. apply list_insert_lookup_same.
        -- rewrite bool_decide_eq_false_2 by congruence.
           by rewrite list_lookup_insert_ne.
    + intros name. rewrite Hjs. simpl.
      destruct (given_joint env names values name); [done|].
      rewrite Hn. rewrite bool_decide_eq_false_2; [done|].
      intros [_ [? ?]]. done.
    + intros i. rewrite Hq. simpl.
      destruct (given_index env names values i); [done|].
      by rewrite bool_decide_eq_false_2 by congruence.
Qed.

(** C1. [getState] with a list of joints and values (one value at least
    for every name) returns a new state and leaves the environment, with its
    live state and both managers, exactly as it was.  The new state's
    transforms are computed from the live transforms with [q], a copy of the
    live joint array in which only the given joints are overwritten; the new
    state's record of joints is the live record with only the given joints
    overwritten. *)
Theorem getState_is_a_snapshot (env : KDLEnv) (joint_names : list string)
    (joint_values : list double) :
  length joint_names ≤ length joint_values →
  ∃ state q log,
    getState_vector joint_names joint_values env = (Returns state, env, log) ∧
    transforms state
      = calculateTransforms env (transforms (current_state_ env)) q
          (getRootSegment env) Identity ∧
    (∀ i, q !! i = match given_index env joint_names joint_values i with
                   | Some v => (λ _, v) <$> (kdl_jnt_array_ env !! i)
                   | None => kdl_jnt_array_ env !! i
                   end) ∧
    (∀ name, joints state !! name
             = match given_joint env joint_names joint_values name with
               | Some v => Some v
               | None => joints (current_state_ env) !! name
               end).
Proof.
  intros Hlen. unfold getState_vector.
  destruct (applyJoints_returns env joint_names joint_values
              (joints (current_state_ env), kdl_jnt_array_ env, []) Hlen)
    as [[[js q] log] Hrun].
  rewrite Hrun. apply applyJoints_spec in Hrun as [Hjs Hq].
  exists {| joints := js;
            transforms := calculateTransforms env (transforms (current_state_ env)) q
                            (getRootSegment env) Identity |}, q, log.
  done.
Qed.

End JointUpdates.

Lemma getState_is_a_snapshot_witness :
  ∃ state q log,
    getState_vector ["ghost"; "shoulder"] [d_one; d_two] env_with_bodies
      = (Returns state, env_with_bodies, log) ∧
    transforms state
      = calculateTransforms env_with_bodies
          (transforms (current_state_ env_with_bodies)) q
          (getRootSegment env_with_bodies) Identity ∧
    (∀ i, q !! i
          = match given_index env_with_bodies ["ghost"; "shoulder"] [d_one; d_two] i with
            | Some v => (λ _, v) <$> (kdl_jnt_array_ env_with_bodies !! i)
            | None => kdl_jnt_array_ env_with_bodies !! i
            end) ∧
    (∀ name, joints state !! name
             = match given_joint env_with_bodies ["ghost"; "shoulder"] [d_one; d_two] name with
               | Some v => Some v
               | None => joints (current_state_ env_with_bodies) !! name
               end).
Proof.
  apply (getState_is_a_snapshot env_with_bodies ["ghost"; "shoulder"] [d_one; d_two]).
  simpl. lia.
Defined.

Section Transforms.
Context `{Isometry}.














End Transforms.

Section Attachments.
Context `{Isometry}.

Lemma erase_name_fresh (v : list string) (name : string) :
  name ∉ v → erase_name v name = v.
Proof.
  intros Hfresh. unfold erase_name. induction v as [|x v IH]; [done|].
  apply not_elem_of_cons in Hfresh as [Hne Hfresh].
  rewrite filter_cons_True by congruence. by rewrite IH.
Qed.

Lemma erase_name_pushed (v : list string) (name : string) :
  name ∉ v → erase_name (v ++ [name]) name = v.
Proof.
  intros Hfresh. unfold erase_name. rewrite filter_app.
  fold (erase_name v name). rewrite erase_name_fresh by done.
  rewrite filter_cons_False by (by intros ?). by rewrite filter_nil, app_nil_r.
Qed.

Lemma elem_of_erase_name (v : list string) (name x : string) :
  x ∈ erase_name v name ↔ x ∈ v ∧ x ≠ name.
Proof. unfold erase_name. rewrite list_elem_of_filter. tauto. Qed.

(** Enabling an object, placing it and disabling it again restores the
    flags when the object was disabled (or absent) to begin with. *)
Lemma enabled_flags_roundtrip (objs : gmap string CollisionObject) (name : string)
    (pose : Transform) :
  (∀ o, objs !! name = Some o → co_enabled o = false) →
  co_enabled <$>
    alter (set_enabled false) name
      (alter (set_poses pose pose) name (alter (set_enabled true) name objs))
  = co_enabled <$> objs.
Proof.
  intros Hoff. apply map_eq. intros k.
  rewrite !lookup_fmap. destruct (decide (name = k)) as [->|Hne].
  - rewrite !lookup_alter_eq. destruct (objs !! k) as [o|] eqn:Hk; [|done].
    simpl. by rewrite (Hoff o).
  - by rewrite !lookup_alter_ne.
Qed.

(** ** The invariant *)

Lemma addAttachableObject_ok (env : KDLEnv) (obj : AttachableObject) :
  env_ok env → env_ok (env_after (addAttachableObject obj env)).
Proof.
  intros (Hd & Hc & Hact & Hseg & Hdisj & Hoff).
  unfold env_ok, addAttachableObject, env_after. cbn.
  split; [by destruct (bool_decide _)|]. split; [by destruct (bool_decide _)|].
  do 3 (split; [done|]).
  intros name o Hcat Hatt. destruct (decide (ao_name obj = name)) as [Heq|Hne].
  - rewrite Heq, !lookup_insert_eq. by intros [[= <-]|[= <-]].
  - rewrite lookup_insert_ne in Hcat by done. rewrite !lookup_insert_ne by done.
    intros Hlook. apply (Hoff name o Hcat Hatt).
    destruct (bool_decide _); [|done]. cbn in Hlook.
    by rewrite !lookup_delete_ne in Hlook.
Qed.

Lemma removeAttachableObject_ok (env : KDLEnv) (name : string) :
  env_ok env → env_ok (env_after (removeAttachableObject name env)).
Proof.
  intros Hok. unfold removeAttachableObject, env_after.
  destruct (bool_decide (is_Some _)); [|done].
  destruct Hok as (Hd & Hc & Hact & Hseg & Hdisj & Hoff). unfold env_ok. cbn.
  do 5 (split; [done|]).
  intros x o. rewrite lookup_delete_is_Some. intros [Hne Hcat] Hatt.
  rewrite !lookup_delete_ne by done. by apply Hoff.
Qed.

Lemma attachBody_ok (env : KDLEnv) (info : AttachedBodyInfo) :
  env_ok env → env_ok (env_after (attachBody info env)).
Proof.
  intros Hok. unfold attachBody, env_after.
  destruct (bool_decide (is_Some _)); [done|].
  destruct (bool_decide (_ = None)); [done|].
  destruct (contains (link_names_ env) (object_name info)) eqn:Hlink; [done|].
  apply contains_false in Hlink.
  destruct Hok as (Hd & Hc & Hact & Hseg & Hdisj & Hoff). unfold env_ok. cbn.
  do 2 (split; [done|]). split; [|split; [|split]].
  - intros name Hin. apply elem_of_app.
    destruct (contains (active_link_names_ env) _); [|by left; apply Hact].
    apply elem_of_app in Hin as [Hin|Hin]; [left; by apply Hact | by right].
  - intros name Hin. apply elem_of_app. left. by apply Hseg.
  - intros name. rewrite lookup_insert_is_Some.
    intros [<-|[_ Hsome]]; [|by apply Hdisj].
    intros Hin. by apply Hlink, Hseg.
  - intros name o Hcat. rewrite lookup_insert_None. intros [Hatt Hne].
    rewrite !lookup_alter_ne by done. by apply Hoff.
Qed.

Lemma detachBody_ok (env : KDLEnv) (name : string) :
  env_ok env → env_ok (env_after (detachBody name env)).
Proof.
  intros Hok. unfold detachBody, env_after.
  destruct (bool_decide (is_Some _)) eqn:Hatt; [|done].
  apply bool_decide_eq_true in Hatt.
  destruct Hok as (Hd & Hc & Hact & Hseg & Hdisj & Hoff). unfold env_ok. cbn.
  do 2 (split; [done|]). split; [|split; [|split]].
  - intros x. rewrite !elem_of_erase_name. intros [Hin Hne]. split; [by apply Hact|done].
  - intros x Hin. rewrite elem_of_erase_name. split; [by apply Hseg|].
    intros ->. by apply (Hdisj name).
  - intros x. rewrite lookup_delete_is_Some. intros [_ Hsome]. by apply Hdisj.
  - intros x o Hcat Hnone. destruct (decide (name = x)) as [->|Hne].
    + rewrite !lookup_alter_eq.
      intros [Hlook|Hlook];
        apply fmap_Some in Hlook as (o' & _ & ->); done.
    + rewrite lookup_delete_ne in Hnone by done.
      rewrite !lookup_alter_ne by done. by apply Hoff.
Qed.

(** C8. In a well-formed environment, for an object of the catalogue that
    is not attached, [attachBody] followed by [detachBody] of the same name
    restores the link names, the active link names, both managers' lists of
    active objects and the enabled flag of every object of both managers. *)
Theorem attach_then_detach_restores (env : KDLEnv) (info : AttachedBodyInfo) :
  env_ok env →
  is_Some (attachable_objects_ env !! object_name info) →
  attached_bodies_ env !! object_name info = None →
  let env' := env_after (detachBody (object_name info)
                           (env_after (attachBody info env))) in
  link_names_ env' = link_names_ env ∧
  active_link_names_ env' = active_link_names_ env ∧
  cm_active (discrete_manager_ env') = cm_active (discrete_manager_ env) ∧
  cm_active (continuous_manager_ env') = cm_active (continuous_manager_ env) ∧
  enabled_state (discrete_manager_ env') = enabled_state (discrete_manager_ env) ∧
  enabled_state (continuous_manager_ env') = enabled_state (continuous_manager_ env).
Proof.
  intros (Hd & Hc & Hact & Hseg & Hdisj & Hoff) Hcat Hatt.
  unfold attachBody, env_after.
  rewrite bool_decide_eq_false_2 by (rewrite Hatt; by intros [? ?]).
  rewrite bool_decide_eq_false_2 by (destruct Hcat as [? ->]; done).
  destruct (contains (link_names_ env) (object_name info)) eqn:Hlink.
  - cbn. unfold detachBody.
    rewrite bool_decide_eq_false_2 by (rewrite Hatt; by intros [? ?]). done.
  - apply contains_false in Hlink.
    assert (Hnotactive : object_name info ∉ active_link_names_ env).
    { intros Hin. by apply Hlink, Hact. }
    assert (Hactive :
      erase_name (if contains (active_link_names_ env) (parent_link_name info)
                  then active_link_names_ env ++ [object_name info]
                  else active_link_names_ env) (object_name info)
      = active_link_names_ env).
    { destruct (contains _ _); [by apply erase_name_pushed | by apply erase_name_fresh]. }
    cbn -[erase_name]. unfold detachBody. cbn -[erase_name].
    rewrite bool_decide_eq_true_2 by (rewrite lookup_insert_eq; by eexists).
    cbn -[erase_name].
    rewrite Hactive, Hd, Hc.
    split; [by apply erase_name_pushed|]. do 3 (split; [done|]).
    split.
    + apply enabled_flags_roundtrip.
      intros o Ho. apply (Hoff (object_name info) o); auto.
    + apply enabled_flags_roundtrip.
      intros o Ho. apply (Hoff (object_name info) o); auto.
Qed.

End Attachments.

Lemma example_env_ok : env_ok example_env.
Proof.
  unfold env_ok. cbn. repeat split.
  - intros name Hin. apply list_elem_of_singleton in Hin as ->. right. left.
  - done.
  - intros name [? Hn]. by rewrite lookup_empty in Hn.
  - intros name o [? Hn]. by rewrite lookup_empty in Hn.
Qed.

Lemma env_with_objects_ok : env_ok env_with_objects.
Proof. do 2 apply addAttachableObject_ok. apply example_env_ok. Qed.



Lemma attach_then_detach_restores_witness :
  let env' := env_after (detachBody (object_name box_info)
                           (env_after (attachBody box_info env_with_objects))) in
  link_names_ env' = link_names_ env_with_objects ∧
  active_link_names_ env' = active_link_names_ env_with_objects ∧
  cm_active (discrete_manager_ env') = cm_active (discrete_manager_ env_with_objects) ∧
  cm_active (continuous_manager_ env') = cm_active (continuous_manager_ env_with_objects) ∧
  enabled_state (discrete_manager_ env') = enabled_state (discrete_manager_ env_with_objects) ∧
  enabled_state (continuous_manager_ env')
    = enabled_state (continuous_manager_ env_with_objects).
Proof.
  apply (attach_then_detach_restores env_with_objects box_info).
  - apply env_with_objects_ok.
  - by eexists.
  - reflexivity.
Defined.

Section AllowedContacts.
Context `{Isometry}.

Lemma getObjectPairKey_sym (obj1 obj2 : string) :
  getObjectPairKey obj1 obj2 = getObjectPairKey obj2 obj1.
Proof.
  unfold getObjectPairKey, String.ltb.
  rewrite (String.compare_antisym obj2 obj1).
  destruct (String.compare obj1 obj2) eqn:Hcmp; simpl; try done.
  apply String.compare_eq_iff in Hcmp as ->. done.
Qed.

Lemma isCollisionAllowed_sym (acm : AllowedCollisionMatrix) (a b : string) :
  isCollisionAllowed acm a b = isCollisionAllowed acm b a.
Proof. unfold isCollisionAllowed. by rewrite getObjectPairKey_sym. Qed.

(** A name is always allowed to touch itself. *)
Lemma isAllowed_refl (env : KDLEnv) (a : string) : isAllowed env a a = true.
Proof. unfold isAllowed, isContactAllowed. by rewrite bool_decide_eq_true_2. Qed.

(** The predicate is symmetric as long as the two names are not both
    attached bodies. *)
Lemma isAllowed_sym_unless_both_attached (env : KDLEnv) (a b : string) :
  attached_bodies_ env !! a = None ∨ attached_bodies_ env !! b = None →
  isAllowed env a b = isAllowed env b a.
Proof.
  intros Hone. unfold isAllowed, isContactAllowed.
  destruct (decide (a = b)) as [->|Hne]; [done|].
  rewrite !bool_decide_eq_false_2 by congruence.
  unfold defaultIsContactAllowedFn.
  replace (match allowed_collision_matrix_ env with
           | Some acm => isCollisionAllowed acm b a
           | None => false
           end)
    with (match allowed_collision_matrix_ env with
          | Some acm => isCollisionAllowed acm a b
          | None => false
          end)
    by (destruct (allowed_collision_matrix_ env); [apply isCollisionAllowed_sym|done]).
  destruct (match allowed_collision_matrix_ env with Some _ => _ | None => _ end); [done|].
  destruct (attached_bodies_ env !! a), (attached_bodies_ env !! b); try done.
  by destruct Hone.
Qed.

End AllowedContacts.

(** C5, evaluated where the code departs from it. With the box and the
    tool both attached and the tool among the box's touch links,
    [isAllowed box tool] holds but [isAllowed tool box] does not: when both
    names are attached bodies only the first body's parent and touch links
    are consulted. *)
Theorem isAllowed_not_symmetric_for_two_attached_bodies :
  attached_bodies_ env_with_bodies !! "box" = Some box_info ∧
  attached_bodies_ env_with_bodies !! "tool" = Some tool_info ∧
  contains (touch_links box_info) "tool" = true ∧
  isAllowed env_with_bodies "box" "tool" = true ∧
  isAllowed env_with_bodies "tool" "box" = false.
Proof. repeat split. Qed.

Section SetState.
Context `{Isometry}.

(** The loop over an [unordered_map] is the loop over its entries. *)
Lemma applyJointMap_applyJoints env (l : list (string * double)) : ∀ acc,
  Returns (foldl (λ acc p, applyJoint env acc p.1 p.2) acc l)
  = applyJoints env l.*1 l.*2 acc.
Proof. induction l as [|[n v] l IH]; intros acc; [done|]. simpl. apply IH. Qed.

Lemma given_joint_unknown env names : ∀ values name,
  joint_to_qnr_ env !! name = None → given_joint env names values name = None.
Proof.
  induction names as [|n names IH]; intros values name Hname; [done|].
  destruct values as [|v values]; [done|]. simpl. rewrite IH by done.
  rewrite bool_decide_eq_false_2; [done|]. intros [-> [? ?]]. congruence.
Qed.

Lemma given_joint_not_named env names : ∀ values name,
  name ∉ names → given_joint env names values name = None.
Proof.
  induction names as [|n names IH]; intros values name Hname; [done|].
  destruct values as [|v values]; [done|]. simpl.
  apply not_elem_of_cons in Hname as [Hne Hname]. rewrite IH by done.
  rewrite bool_decide_eq_false_2; [done|]. intros [-> _]. done.
Qed.

Lemma given_joint_entries env (l : list (string * double)) (name : string) :
  NoDup l.*1 →
  given_joint env l.*1 l.*2 name
  = if bool_decide (is_Some (joint_to_qnr_ env !! name))
    then (list_to_map l : gmap string double) !! name else None.
Proof.
  induction l as [|[n v] l IH]; intros Hnd.
  - cbn. by destruct (bool_decide _).
  - change (((n, v) :: l).*1) with (n :: l.*1) in *.
    change (((n, v) :: l).*2) with (v :: l.*2).
    cbn [given_joint]. rewrite list_to_map_cons.
    apply NoDup_cons in Hnd as [Hn Hnd]. rewrite IH by done.
    destruct (decide (n = name)) as [->|Hne].
    + rewrite lookup_insert_eq.
      rewrite (not_elem_of_list_to_map_1 (M := gmap string) l name) by done.
      destruct (bool_decide (is_Some (joint_to_qnr_ env !! name))) eqn:Hk.
      * apply bool_decide_eq_true in Hk. by rewrite bool_decide_eq_true_2.
      * apply bool_decide_eq_false in Hk. rewrite bool_decide_eq_false_2; [done|].
        by intros [_ ?].
    + rewrite lookup_insert_ne by done.
      rewrite (bool_decide_eq_false_2 (n = name ∧ _)) by (by intros [? _]).
      destruct (bool_decide _); [|done]. by destruct (_ !! name).
Qed.

(** The record of joints after the loop over an [unordered_map]. *)
Lemma applyJointMap_joints env (joint_map js : gmap string double) q log name :
  (applyJointMap env joint_map (js, q, log)).1.1 !! name
  = match joint_map !! name with
    | Some v => if bool_decide (is_Some (joint_to_qnr_ env !! name))
                then Some v else js !! name
    | None => js !! name
    end.
Proof.
  unfold applyJointMap.
  destruct (foldl _ _ _) as [[js' q'] log'] eqn:Hfold.
  apply (f_equal Returns) in Hfold. rewrite applyJointMap_applyJoints in Hfold.
  apply applyJoints_spec in Hfold as [Hjs _]. cbn. rewrite Hjs.
  rewrite given_joint_entries by apply NoDup_fst_map_to_list.
  rewrite list_to_map_to_list.
  by destruct (bool_decide _), (joint_map !! name).
Qed.

(** The vector overload of [setState] rejects unknown names: a given joint the
    tree knows gets its (last) value, every other joint of the record,
    named or not, keeps its value, and an unknown name adds nothing to the
    record. *)
Lemma setState_vector_joints env joint_names joint_values :
  length joint_names ≤ length joint_values →
  ∃ env' log,
    setState_vector joint_names joint_values env = (Returns tt, env', log) ∧
    ∀ name, joints (current_state_ env') !! name
            = match given_joint env joint_names joint_values name with
              | Some v => Some v
              | None => joints (current_state_ env) !! name
              end.
Proof.
  intros Hlen. unfold setState_vector.
  destruct (applyJoints_returns env joint_names joint_values
              (joints (current_state_ env), kdl_jnt_array_ env, []) Hlen)
    as [[[js q] log] Hrun].
  rewrite Hrun. apply applyJoints_spec in Hrun as [Hjs _].
  do 2 eexists. split; [reflexivity|]. done.
Qed.

Lemma setState_vector_keeps_other_joints env joint_names joint_values name :
  length joint_names ≤ length joint_values →
  joint_to_qnr_ env !! name = None ∨ name ∉ joint_names →
  joints (current_state_ (env_after (setState_vector joint_names joint_values env)))
    !! name
  = joints (current_state_ env) !! name.
Proof.
  intros Hlen Hname.
  destruct (setState_vector_joints env joint_names joint_values Hlen)
    as (env' & log & Hrun & Hjs).
  rewrite Hrun. unfold env_after. cbn. rewrite Hjs.
  destruct Hname as [Hname|Hname].
  - by rewrite given_joint_unknown.
  - by rewrite given_joint_not_named.
Qed.

(** The map overload: the record of joints after the call.  A given name
    the tree does not know and the record does not hold yet is added to the
    record with the given value. *)
Lemma setState_map_joints env (joint_map : gmap string double) name :
  joints (current_state_ (env_after (setState_map joint_map env))) !! name
  = match joint_map !! name with
    | Some v =>
        if bool_decide (is_Some (joint_to_qnr_ env !! name)) then Some v
        else match joints (current_state_ env) !! name with
             | Some old => Some old
             | None => Some v
             end
    | None => joints (current_state_ env) !! name
    end.
Proof.
  unfold setState_map, env_after.
  pose proof (applyJointMap_joints env joint_map
                (joints (current_state_ env) ∪ joint_map) (kdl_jnt_array_ env) [] name)
    as Hjs.
  destruct (applyJointMap _ _ _) as [[js q] log]. cbn in *. rewrite Hjs.
  rewrite lookup_union.
  destruct (joint_map !! name); [destruct (bool_decide _)|];
    by destruct (joints (current_state_ env) !! name).
Qed.

End SetState.

(** C6, evaluated where the code departs from it. [setState] with the map
    [{ghost: 1.0}] on an environment whose tree has no joint [ghost] and
    whose record of joints has no entry [ghost]: the call logs the error and
    returns, but the live state's record of joints has gained the entry
    [ghost = 1.0].  The vector overload, given the same input, leaves the
    record without an entry for [ghost]. *)
Theorem setState_map_records_unknown_joint :
  joint_to_qnr_ example_env !! "ghost" = None ∧
  joints (current_state_ example_env) !! "ghost" = None ∧
  joints (current_state_ (env_after (setState_map {["ghost" := d_one]} example_env)))
    !! "ghost" = Some d_one ∧
  (setState_map {["ghost" := d_one]} example_env).2
    = [(ROS_ERROR, "Tried to set joint name ghost which does not exist!")] ∧
  joints (current_state_ (env_after (setState_vector ["ghost"] [d_one] example_env)))
    !! "ghost" = None.
Proof. repeat split. Qed.

Section StateUpdatesKeepInvariant.
Context `{Isometry}.

(** Pushing transforms into a manager touches neither its list of active
    objects nor any enabled flag. *)
Lemma setCollisionObjectsTransforms_active cm (tfs : gmap string Transform) :
  cm_active (setCollisionObjectsTransforms cm tfs) = cm_active cm.
Proof.
  unfold setCollisionObjectsTransforms. generalize (map_to_list tfs). intros l.
  revert cm. induction l as [|[name pose] l IH]; intros cm; [done|].
  simpl. by rewrite IH.
Qed.

Lemma setCollisionObjectsTransforms_enabled cm (tfs : gmap string Transform) :
  enabled_state (setCollisionObjectsTransforms cm tfs) = enabled_state cm.
Proof.
  unfold setCollisionObjectsTransforms. generalize (map_to_list tfs). intros l.
  revert cm. induction l as [|[name pose] l IH]; intros cm; [done|].
  simpl. rewrite IH. unfold enabled_state. simpl. apply map_eq. intros k.
  rewrite !lookup_fmap. destruct (decide (name = k)) as [->|Hne].
  - rewrite lookup_alter_eq. by destruct (cm_objects cm !! k).
  - by rewrite lookup_alter_ne.
Qed.

Lemma enabled_state_lookup cm1 cm2 name o :
  enabled_state cm1 = enabled_state cm2 →
  cm_objects cm1 !! name = Some o →
  ∃ o', cm_objects cm2 !! name = Some o' ∧ co_enabled o' = co_enabled o.
Proof.
  intros Heq Ho. apply (f_equal (λ m : gmap string bool, m !! name)) in Heq.
  unfold enabled_state in Heq. rewrite !lookup_fmap, Ho in Heq. simpl in Heq.
  destruct (cm_objects cm2 !! name) as [o'|]; [|done].
  injection Heq as Heq. by exists o'.
Qed.

Lemma setState_map_ok (env : KDLEnv) (joint_map : gmap string double) :
  env_ok env → env_ok (env_after (setState_map joint_map env)).
Proof.
  intros (Hd & Hc & Hact & Hseg & Hdisj & Hoff).
  unfold setState_map, env_after.
  destruct (applyJointMap _ _ _) as [[js q] log]. unfold env_ok. cbn.
  rewrite !setCollisionObjectsTransforms_active.
  do 5 (split; [done|]).
  intros name o Hcat Hatt [Ho|Ho];
    apply (enabled_state_lookup _ _ _ _ (setCollisionObjectsTransforms_enabled _ _)) in Ho
      as (o' & Ho' & <-);
    apply (Hoff name o' Hcat Hatt); auto.
Qed.

Lemma setState_vector_ok (env : KDLEnv) (joint_names : list string)
    (joint_values : list double) :
  env_ok env → env_ok (env_after (setState_vector joint_names joint_values env)).
Proof.
  intros Hok. unfold setState_vector, env_after.
  destruct (applyJoints _ _ _ _) as [[[js q] log]| |]; [|done..].
  destruct Hok as (Hd & Hc & Hact & Hseg & Hdisj & Hoff). unfold env_ok. cbn.
  rewrite !setCollisionObjectsTransforms_active.
  do 5 (split; [done|]).
  intros name o Hcat Hatt [Ho|Ho];
    apply (enabled_state_lookup _ _ _ _ (setCollisionObjectsTransforms_enabled _ _)) in Ho
      as (o' & Ho' & <-);
    apply (Hoff name o' Hcat Hatt); auto.
Qed.

(** The snapshot taken from an [unordered_map] of joints: the environment is
    handed back unchanged, and the snapshot's record of joints is the live
    record with the given joints that the tree knows overwritten. *)
Lemma getState_map_is_a_snapshot (env : KDLEnv) (joint_map : gmap string double) :
  ∃ state log,
    getState_map joint_map env = (state, env, log) ∧
    ∀ name, joints state !! name
            = match joint_map !! name with
              | Some v => if bool_decide (is_Some (joint_to_qnr_ env !! name))
                          then Some v else joints (current_state_ env) !! name
              | None => joints (current_state_ env) !! name
              end.
Proof.
  unfold getState_map.
  pose proof (applyJointMap_joints env joint_map (joints (current_state_ env))
                (kdl_jnt_array_ env) []) as Hjs.
  destruct (applyJointMap _ _ _) as [[js q] log].
  do 2 eexists. split; [reflexivity|]. apply Hjs.
Qed.

(** The invariant survives every sequence of calls. *)
Lemma calls_keep_env_ok (calls : list Call) (env : KDLEnv) :
  env_ok env → env_ok (foldl call env calls).
Proof.
  revert env. induction calls as [|c calls IH]; intros env Hok; [done|].
  simpl. apply IH. destruct c; simpl.
  - by apply setState_map_ok.
  - by apply setState_vector_ok.
  - unfold getState_map, env_after.
    by destruct (applyJointMap _ _ _) as [[js q] log].
  - unfold getState_vector, env_after.
    by destruct (applyJoints _ _ _ _) as [[[js q] log]| |].
  - by apply addAttachableObject_ok.
  - by apply removeAttachableObject_ok.
  - by apply attachBody_ok.
  - by apply detachBody_ok.
Qed.

End StateUpdatesKeepInvariant.

